(** * Filter dispatch and template chunks of the liquid template engine

    A shallow embedding of

    - package [expressions] (filter registration and dispatch:
      [DefineFilter], [isClosureInterfaceType], [makeFilter]), and
    - package [chunks] (the [Chunk], [SourceInfo] and [ChunkType]
      declarations and [Chunk.String]),

    followed by the properties the specification states about them.

    Go's [panic] is modelled by the [Outcome] error monad, the package-level
    [filters] map by an explicit [gmap] that is passed in and returned, and
    Go's [interface{}] by the sum type [Value]. *)

From Stdlib Require Import ZArith Ascii.
From Stdlib Require Import Strings.Byte.
From stdpp Require Import base option strings list gmap.


(* ===================================================================== *)
(** * Part I: definitions *)
(* ===================================================================== *)

(** ** Package expressions *)

Module Expressions.

(** *** Go types as seen through [reflect] *)

(** The part of [reflect.Type] that dispatch looks at.  An interface type is
    written with the names of its methods, so [TInterface []] is
    [interface{}]; which type converts to which is left to [reflect]. *)
Inductive GoType :=
| TBool
| TInt
| TFloat64
| TString
| TBytes
| TSlice
| TMap
| TInterface (methods : list string)
| TClosure                     (* the struct type [closure] *)
| TNamed (name : string).      (* any other type *)

(** The [reflect.Type] of a function: its input types and its number of
    outputs. *)
Record FuncType := {
  Ins : list GoType;
  NumOut : nat;
}.

Definition NumIn (t : FuncType) : nat := length (Ins t).

(** [t.In(i)]; [reflect] panics when [i] is out of range, which is [None]
    here. *)
Definition InType (t : FuncType) (i : nat) : option GoType := Ins t !! i.

(** *** Panics *)

(** The values the modelled code panics with. *)
Inductive PanicValue :=
| UndefinedFilter (name : string)    (* errors.UndefinedFilter(name) *)
| GenericError (msg : string)        (* generics.GenericError *)
| InterpreterError (msg : string)    (* InterpreterError(msg) *)
| FilterArityError                   (* named by the specification only *)
| TypeAssertionError                 (* runtime error of [x.(string)] *)
| FmtError (msg : string)            (* fmt.Errorf(msg) *)
| OtherPanic (msg : string).         (* any other error or panic value *)

(** [e.Error()] for a [generics.GenericError]. *)
Definition GenericError_Error (msg : string) : string := msg.

Definition isGenericError (p : PanicValue) : bool :=
  match p with GenericError _ => true | _ => false end.

(** A computation that returns or panics. *)
Inductive Outcome (A : Type) :=
| Ret (a : A)
| Panic (p : PanicValue).
Arguments Ret {A} a.
Arguments Panic {A} p.

#[global] Instance Outcome_ret : MRet Outcome := @Ret.
#[global] Instance Outcome_bind : MBind Outcome := λ A B k m,
  match m with
  | Ret a => k a
  | Panic p => Panic p
  end.

(** *** Values *)

(** [interface{}].  [Context] and [Expression] are declared in files of the
    package that dispatch does not inspect; they stay abstract. *)
Inductive Value (Context Expression : Type) :=
| VNil
| VBool (b : bool)
| VInt (n : Z)
| VString (s : string)
| VBytes (b : list byte)                        (* []byte *)
| VClosure (expr : Expression) (ctx : Context)  (* closure{expr, ctx} *)
| VFunc (t : FuncType) (code : nat)             (* a func value *)
| VOther (descr : string).
Arguments VNil {Context Expression}.
Arguments VBool {Context Expression} b.
Arguments VInt {Context Expression} n.
Arguments VString {Context Expression} s.
Arguments VBytes {Context Expression} b.
Arguments VClosure {Context Expression} expr ctx.
Arguments VFunc {Context Expression} t code.
Arguments VOther {Context Expression} descr.

(** The three ways [generics.Call] can end: it returns [(out, nil)], it
    returns [(nil, err)], or the called function panics. *)
Inductive CallResult (Context Expression : Type) :=
| CallOut (out : Value Context Expression)
| CallErr (err : PanicValue)
| CallPanic (p : PanicValue).
Arguments CallOut {Context Expression} out.
Arguments CallErr {Context Expression} err.
Arguments CallPanic {Context Expression} p.

(** What [makeFilter] uses from the rest of the program. *)
Class Host (Context Expression : Type) := {
  (** [Parse(source)] returns [(expr, err)]. *)
  Parse : string → Expression + PanicValue;
  (** [generics.Call(fr, args)]. *)
  Call : Value Context Expression → list (Value Context Expression) →
         CallResult Context Expression;
  (** [src.ConvertibleTo(dst)] of [reflect]. *)
  ConvertibleTo : GoType → GoType → bool;
}.

Section Dispatch.
Context {Context Expression : Type} `{!Host Context Expression}.

Local Abbreviation Value := (Value Context Expression).

(** [type valueFn func(Context) interface{}] *)
Definition valueFn : Type := Context → Outcome Value.

(** *** DefineFilter *)

Definition DefineFilter (name : string) (fn : Value)
    (filters : gmap string Value) : Outcome (gmap string Value) :=
  match fn with
  | VFunc t _ =>
      if (NumIn t <? 1)%nat then
        Panic (FmtError "a filter function must have at least one input")
      else if (2 <? NumOut t)%nat then
        Panic (FmtError "a filter must be have one or two outputs")
      else Ret (<[name := fn]> filters)
  | _ => Panic (FmtError "a filter must be a function")
  end.

(** *** isClosureInterfaceType *)

(** [reflect.TypeOf(closure{})] *)
Definition closureType : GoType := TClosure.

(** [reflect.TypeOf([]interface{}{}).Elem()], the type [interface{}] *)
Definition interfaceType : GoType := TInterface [].

Definition isClosureInterfaceType (t : GoType) : bool :=
  ConvertibleTo closureType t && negb (ConvertibleTo interfaceType t).

(** *** makeFilter *)

(** [fr.Type()]; [reflect] panics, with a message of its own, when [NumIn]
    is asked of the type of a value that is not a function. *)
Definition funcTypeOf (fn : Value) : Outcome FuncType :=
  match fn with
  | VFunc t _ => Ret t
  | _ => Panic (OtherPanic "reflect: NumIn of non-func type")
  end.

(** [i+1 < fr.Type().NumIn() && isClosureInterfaceType(fr.Type().In(i+1))] *)
Definition closureParam (t : FuncType) (i : nat) : bool :=
  (i + 1 <? NumIn t)%nat &&
  match InType t (i + 1) with
  | Some ty => isClosureInterfaceType ty
  | None => false
  end.

(** [v.(string)] *)
Definition assertString (v : Value) : Outcome string :=
  match v with
  | VString s => Ret s
  | _ => Panic TypeAssertionError
  end.

(** One iteration of the loop over [params]: the argument appended to
    [args] for parameter [i]. *)
Definition evalParam (fn : Value) (ctx : Context) (i : nat)
    (param : valueFn) : Outcome Value :=
  t ← funcTypeOf fn;
  if closureParam t i then
    v ← param ctx;
    s ← assertString v;
    match Parse s with
    | inr err => Panic err
    | inl expr => Ret (VClosure expr ctx)
    end
  else param ctx.

(** [for i, param := range params { ... }], started at index [i] with
    [args] collected so far. *)
Fixpoint evalParams (fn : Value) (ctx : Context) (i : nat)
    (params : list valueFn) (args : list Value) : Outcome (list Value) :=
  match params with
  | [] => Ret args
  | param :: rest =>
      a ← evalParam fn ctx i param;
      evalParams fn ctx (S i) rest (args ++ [a])
  end.

(** The conversion of the result: [[]byte] becomes [string]. *)
Definition convertOut (out : Value) : Value :=
  match out with
  | VBytes b => VString (String.string_of_list_byte b)
  | _ => out
  end.

(** [out, err := generics.Call(fr, args)] followed by
    [if err != nil { panic(err) }] and the type switch on [out]. *)
Definition callOutcome (r : CallResult Context Expression) : Outcome Value :=
  match r with
  | CallPanic p => Panic p
  | CallErr err => Panic err
  | CallOut out => Ret (convertOut out)
  end.

(** The body of the returned function, without its deferred handler. *)
Definition filterBody (fn : Value) (f : valueFn) (params : list valueFn)
    (ctx : Context) : Outcome Value :=
  v ← f ctx;
  args ← evalParams fn ctx 0 params [v];
  callOutcome (Call fn args).

(** The deferred [recover] handler. *)
Definition recoverFilter (r : Outcome Value) : Outcome Value :=
  match r with
  | Panic (GenericError msg) =>
      Panic (InterpreterError (GenericError_Error msg))
  | Panic e => Panic e
  | Ret v => Ret v
  end.

Definition makeFilter (filters : gmap string Value) (f : valueFn)
    (name : string) (params : list valueFn) : Outcome valueFn :=
  match filters !! name with
  | None => Panic (UndefinedFilter name)
  | Some fn => Ret (λ ctx, recoverFilter (filterBody fn f params ctx))
  end.

End Dispatch.

(** *** generics.Call after the specification *)

(** What the specification's dispatch steps use and leaves to the host
    function and to the coercion rules. *)
Class FilterSignatures (Context Expression : Type) := {
  (** The number of optional parameters recorded for a callable when it is
      registered. *)
  optionalParams : Value Context Expression → nat;
  (** The coercion of an argument to a declared parameter type. *)
  coerce : GoType → Value Context Expression → Value Context Expression;
  (** The host function applied to coerced arguments. *)
  invoke : Value Context Expression → list (Value Context Expression) →
           CallResult Context Expression;
}.

Section SpecCall.
Context {Context Expression : Type} `{!FilterSignatures Context Expression}.

Local Abbreviation Value := (Value Context Expression).

(** Parameters after the input value that are not optional. *)
Definition requiredParams (fr : Value) : nat :=
  match fr with
  | VFunc t _ => NumIn t - 1 - optionalParams fr
  | _ => 0
  end.

(** Modelled from the spec: [generics.Call], whose file is not among the
    sources.  Dispatch steps 2 to 4 of the filter dispatcher: [args] holds
    the input value followed by the evaluated arguments; the number of
    arguments must lie between the required count and the required plus
    optional count, otherwise the call fails with [FilterArityError];
    each argument is coerced to the declared parameter type and the filter
    is invoked. *)
Definition SpecCall (fr : Value) (args : list Value)
    : CallResult Context Expression :=
  match fr with
  | VFunc t _ =>
      let n := (length args - 1)%nat in
      if (n <? requiredParams fr)%nat
         || (requiredParams fr + optionalParams fr <? n)%nat
      then CallErr FilterArityError
      else invoke fr (zip_with coerce (Ins t) args)
  | _ => CallPanic (OtherPanic "reflect: call of non-function")
  end.

Definition SpecHost (parse : string → Expression + PanicValue)
    (convertibleTo : GoType → GoType → bool) : Host Context Expression :=
  {| Parse := parse; Call := SpecCall; ConvertibleTo := convertibleTo |}.

End SpecCall.

(** *** A small host for concrete runs *)

Module Sample.

(** Bindings of names to strings. *)
Definition Ctx : Type := list (string * string).

(** A parsed expression is kept as its source text; the empty text does not
    parse. *)
Definition Expr : Type := string.

Definition parse (s : string) : Expr + PanicValue :=
  match s with
  | EmptyString => inr (OtherPanic "parse error")
  | _ => inl s
  end.

Definition anyT : GoType := TInterface [].

Definition echoT : FuncType := {| Ins := [anyT]; NumOut := 1 |}.
Definition sortT : FuncType := {| Ins := [anyT; TClosure]; NumOut := 1 |}.
Definition sliceT : FuncType := {| Ins := [anyT; TInt; TInt]; NumOut := 1 |}.

(** The function bodies, by code: 0 returns its input, 1 returns its second
    argument, 2 returns a generic error, 3 panics with something else,
    4 returns the bytes of "hi". *)
Definition call (fr : Value Ctx Expr) (args : list (Value Ctx Expr))
    : CallResult Ctx Expr :=
  match fr with
  | VFunc _ 0 => CallOut (default VNil (args !! 0%nat))
  | VFunc _ 1 => CallOut (default VNil (args !! 1%nat))
  | VFunc _ 2 => CallErr (GenericError "division by zero")
  | VFunc _ 3 => CallPanic (OtherPanic "nil pointer dereference")
  | VFunc _ 4 => CallOut (VBytes [Byte.x68; Byte.x69])
  | _ => CallPanic (OtherPanic "no such function")
  end.

(** The conversions of the sample host: [closure] converts to itself and to
    the interfaces whose methods are among its own, [interface{}] to
    itself. *)
Definition convertibleTo (src dst : GoType) : bool :=
  match src, dst with
  | TClosure, TClosure => true
  | TClosure, TInterface ms => forallb (λ m, bool_decide (m ∈ ["Evaluate"])) ms
  | TInterface [], TInterface [] => true
  | _, _ => false
  end.

#[global] Instance host : Host Ctx Expr :=
  {| Parse := parse; Call := call; ConvertibleTo := convertibleTo |}.

Definition registry : gmap string (Value Ctx Expr) :=
  <["echo" := VFunc echoT 0]> (
  <["sort" := VFunc sortT 1]> (
  <["fail" := VFunc echoT 2]> (
  <["crash" := VFunc echoT 3]> (
  <["bytes" := VFunc echoT 4]> ∅)))).

(** The input expression: the literal 7. *)
Definition input : @valueFn Ctx Expr := λ _, Ret (VInt 7).

(** The argument expression [k]: a variable looked up in the context. *)
Definition var (k : string) : @valueFn Ctx Expr := λ ctx,
  match list_find (λ b, b.1 = k) ctx with
  | Some (_, (_, s)) => Ret (VString s)
  | None => Ret VNil
  end.

(** A host after the specification, whose filters take one required and one
    optional parameter and return their input. *)
#[global] Instance signatures : FilterSignatures Ctx Expr :=
  {| optionalParams := λ _, 1%nat;
     coerce := λ _ v, v;
     invoke := λ _ args, CallOut (default VNil (args !! 0%nat)) |}.

Definition specHost : Host Ctx Expr := SpecHost parse convertibleTo.

(** A registry with one filter of three inputs: the input value, a required
    and an optional parameter. *)
Definition sliceRegistry : gmap string (Value Ctx Expr) :=
  {["slice" := VFunc sliceT 0]}.

End Sample.

End Expressions.

(** ** Package chunks *)

Module Chunks.

(** *** chunk.go *)

(** [type ChunkType int] with its three constants. *)
Inductive ChunkType :=
| TextChunkType
| TagChunkType
| ObjChunkType.

Record SourceInfo := {
  Pathname : string;
  lineNo : Z;
}.

Record Chunk := {
  Chunk_Type : ChunkType;
  Chunk_SourceInfo : SourceInfo;
  Name : string;
  Parameters : string;
  Source : string;
}.

(** What [fmt.Sprintf] does with the verbs of [Chunk.String]: [%s] of a
    [ChunkType] and [%#v] of a string. *)
Class Fmt := {
  ChunkType_String : ChunkType → string;
  quoted : string → string;
}.

(** [func (c Chunk) String() string] *)
Definition Chunk_String `{Fmt} (c : Chunk) : string :=
  match Chunk_Type c with
  | TextChunkType =>
      ChunkType_String (Chunk_Type c) +:+ "{" +:+ quoted (Source c) +:+ "}"
  | TagChunkType =>
      ChunkType_String (Chunk_Type c) +:+ "{Tag:" +:+ quoted (Name c)
      +:+ ", Args:" +:+ quoted (Parameters c) +:+ "}"
  | ObjChunkType =>
      ChunkType_String (Chunk_Type c) +:+ "{" +:+ quoted (Parameters c) +:+ "}"
  end.

(** *** The scanner after the specification *)

(** The two kinds of markup. *)
Inductive Markup := Object | Tag.

(** The scan error: a markup that is not terminated, with the location of its
    opening marker. *)
Inductive ScanError :=
| Unterminated (kind : Markup) (opening : SourceInfo).

Definition isSpace (c : ascii) : bool :=
  bool_decide (c = " "%char) || bool_decide (c = "009"%char)
  || bool_decide (c = "010"%char) || bool_decide (c = "013"%char).

Definition isNewline (c : ascii) : bool := bool_decide (c = "010"%char).

Definition isQuote (c : ascii) : bool :=
  bool_decide (c = "'"%char) || bool_decide (c = "034"%char).

(** The second character of an opening marker, and the first of a closing
    one. *)
Definition opener (k : Markup) : ascii :=
  match k with Object => "{"%char | Tag => "%"%char end.

Definition closer (k : Markup) : ascii :=
  match k with Object => "}"%char | Tag => "%"%char end.

Definition openMarker (k : Markup) : string :=
  String "{" (String (opener k) "").

Definition closeMarker (k : Markup) : string :=
  String (closer k) (String "}" "").

Fixpoint skipSpace (s : string) : string :=
  match s with
  | String c rest => if isSpace c then skipSpace rest else s
  | EmptyString => s
  end.

(** The whitespace a string starts with. *)
Fixpoint spaces (s : string) : string :=
  match s with
  | String c rest => if isSpace c then String c (spaces rest) else ""
  | EmptyString => ""
  end.

(** Strings of whitespace only, and strings without whitespace. *)
Fixpoint blank (s : string) : bool :=
  match s with
  | String c rest => isSpace c && blank rest
  | EmptyString => true
  end.

Fixpoint spaceFree (s : string) : bool :=
  match s with
  | String c rest => negb (isSpace c) && spaceFree rest
  | EmptyString => true
  end.

(** The run of characters up to the first whitespace, and what follows it. *)
Fixpoint word (s : string) : string :=
  match s with
  | String c rest => if isSpace c then "" else String c (word rest)
  | EmptyString => ""
  end.

Fixpoint afterWord (s : string) : string :=
  match s with
  | String c rest => if isSpace c then s else afterWord rest
  | EmptyString => ""
  end.

Fixpoint trimRight (s : string) : string :=
  match s with
  | String c rest =>
      match trimRight rest with
      | EmptyString => if isSpace c then "" else String c ""
      | r => String c r
      end
  | EmptyString => ""
  end.

(** The whitespace-control dash after an opening and before a closing
    marker. *)
Definition leftDash (interior : string) : string :=
  match interior with
  | String c _ => if bool_decide (c = "-"%char) then "-" else ""
  | EmptyString => ""
  end.

Definition dropLeftDash (interior : string) : string :=
  match interior with
  | String c rest => if bool_decide (c = "-"%char) then rest else interior
  | EmptyString => ""
  end.

Fixpoint rightDash (s : string) : string :=
  match s with
  | String c EmptyString => if bool_decide (c = "-"%char) then "-" else ""
  | String _ rest => rightDash rest
  | EmptyString => ""
  end.

Fixpoint dropRightDash (s : string) : string :=
  match s with
  | String c EmptyString => if bool_decide (c = "-"%char) then "" else s
  | String c rest => String c (dropRightDash rest)
  | EmptyString => ""
  end.

Definition dash (s : string) : Prop := s = "" ∨ s = "-".

(** The body of a markup: its interior without the whitespace-control
    dashes. *)
Definition body (interior : string) : string :=
  dropRightDash (dropLeftDash interior).

(** Modelled from the spec: the name of a tag is the first run of characters
    of its body that are not whitespace, its arguments are what follows the
    whitespace after the name, up to the closing marker and without the
    whitespace before it, as in the field comments of [Chunk]: the name of
    [{% if 1 %}] is [if] and its arguments are [1]. *)
Definition tagName (interior : string) : string :=
  word (skipSpace (body interior)).

Definition tagArguments (interior : string) : string :=
  trimRight (skipSpace (afterWord (skipSpace (body interior)))).

Definition location (pathname : string) (line : Z) : SourceInfo :=
  {| Pathname := pathname; lineNo := line |}.

Definition markupChunk (k : Markup) (pathname : string) (line : Z)
    (interior : string) : Chunk :=
  match k with
  | Object =>
      {| Chunk_Type := ObjChunkType;
         Chunk_SourceInfo := location pathname line;
         Name := "";
         Parameters := body interior;
         Source := openMarker Object +:+ interior +:+ closeMarker Object |}
  | Tag =>
      {| Chunk_Type := TagChunkType;
         Chunk_SourceInfo := location pathname line;
         Name := tagName interior;
         Parameters := tagArguments interior;
         Source := openMarker Tag +:+ interior +:+ closeMarker Tag |}
  end.

(** The text between two markups; no chunk for an empty text. *)
Definition textChunk (pathname : string) (line : Z) (text : string)
    : list Chunk :=
  match text with
  | EmptyString => []
  | _ => [{| Chunk_Type := TextChunkType;
             Chunk_SourceInfo := location pathname line;
             Name := "";
             Parameters := "";
             Source := text |}]
  end.

(** Where the forward pass is: in text, or inside a markup that was opened
    on line [opening], outside ([None]) or inside ([Some q]) a quoted string
    delimited by [q]. *)
Inductive Mode :=
| InText
| InMarkup (k : Markup) (opening : Z) (quote : option ascii).

Definition nextLine (line : Z) (c : ascii) : Z :=
  if isNewline c then (line + 1)%Z else line.

(** Modelled from the spec: the scanner, whose file is not among the
    sources.  A single forward pass over the input.  In text, the two
    characters of an opening marker start an object or a tag, any other
    character is literal text.  Inside a markup the closing marker ends it
    unless it lies in a single-quoted or double-quoted string; the end of
    the input inside a markup is a scan error with the opening location.
    The result is the rest of the chunk under way (the text up to the next
    markup, or the interior up to the closing marker) and the chunks after
    it. *)
Fixpoint scanFrom (pathname : string) (m : Mode) (line : Z) (s : string)
    : ScanError + (string * list Chunk) :=
  match s with
  | EmptyString =>
      match m with
      | InText => inr ("", [])
      | InMarkup k opening _ => inl (Unterminated k (location pathname opening))
      end
  | String c rest =>
      let literal (m' : Mode) :=
        match scanFrom pathname m' (nextLine line c) rest with
        | inl e => inl e
        | inr (pending, chunks) => inr (String c pending, chunks)
        end in
      match m with
      | InText =>
          let opens (k : Markup) (rest' : string) :=
            match scanFrom pathname (InMarkup k line None) line rest' with
            | inl e => inl e
            | inr (interior, chunks) =>
                inr ("", markupChunk k pathname line interior :: chunks)
            end in
          match rest with
          | String c2 rest' =>
              if bool_decide (c = "{"%char) && bool_decide (c2 = "{"%char)
              then opens Object rest'
              else if bool_decide (c = "{"%char) && bool_decide (c2 = "%"%char)
              then opens Tag rest'
              else literal InText
          | EmptyString => literal InText
          end
      | InMarkup k opening (Some q) =>
          literal (InMarkup k opening
                     (if bool_decide (c = q) then None else Some q))
      | InMarkup k opening None =>
          let inside :=
            InMarkup k opening (if isQuote c then Some c else None) in
          match rest with
          | String c2 rest' =>
              if bool_decide (c = closer k) && bool_decide (c2 = "}"%char)
              then
                match scanFrom pathname InText line rest' with
                | inl e => inl e
                | inr (text, chunks) =>
                    inr ("", textChunk pathname line text ++ chunks)
                end
              else literal inside
          | EmptyString => literal inside
          end
      end
  end.

(** Modelled from the spec: the entry point of the scanner, from a raw
    template string and a pathname to the sequence of chunks or a scan
    error.  Lines are counted from 1. *)
Definition Scan (data pathname : string) : ScanError + list Chunk :=
  match scanFrom pathname InText 1 data with
  | inl e => inl e
  | inr (text, chunks) => inr (textChunk pathname 1 text ++ chunks)
  end.

(** The concatenation of the sources of a sequence of chunks. *)
Definition sources (chunks : list Chunk) : string :=
  foldr (λ c acc, Source c +:+ acc) "" chunks.

(** *** Invariants of the forward pass *)

(** The marker that ends the chunk under way. *)
Definition closing (m : Mode) : string :=
  match m with
  | InText => ""
  | InMarkup k _ _ => closeMarker k
  end.

(** *** Whitespace control *)

Fixpoint endsWith (suffix s : string) : bool :=
  bool_decide (s = suffix)
  || match s with
     | String _ rest => endsWith suffix rest
     | EmptyString => false
     end.

Definition isMarkup (c : Chunk) : bool :=
  match Chunk_Type c with TextChunkType => false | _ => true end.

Definition trimsBefore (c : Chunk) : bool :=
  isMarkup c
  && (String.prefix "{{-" (Source c) || String.prefix "{%-" (Source c)).

Definition trimsAfter (c : Chunk) : bool :=
  isMarkup c
  && (endsWith "-}}" (Source c) || endsWith "-%}" (Source c)).

(** Modelled from the spec: whitespace control, which the sources do not
    show.  A dash after the opening marker of a markup removes the
    whitespace that ends the text before it, a dash before its closing marker
    removes the whitespace that starts the text after it.  The text a text
    chunk contributes is computed from its neighbours; its [Source] stays the
    original slice. *)
Definition visibleText (prev : option Chunk) (c : Chunk) (next : option Chunk)
    : string :=
  let s := Source c in
  let s := if from_option trimsAfter false prev then skipSpace s else s in
  if from_option trimsBefore false next then trimRight s else s.

(** *** Lines and layouts *)

(** The number of newlines in a text. *)
Fixpoint newlines (s : string) : Z :=
  match s with
  | String c rest => ((if isNewline c then 1 else 0) + newlines rest)%Z
  | EmptyString => 0%Z
  end.

Definition isDash (c : ascii) : bool := bool_decide (c = "-"%char).

(** Whether the first, respectively the last, character of a string
    satisfies a test; not so for the empty string. *)
Definition firstIs (P : ascii → bool) (s : string) : bool :=
  match s with
  | String c _ => P c
  | EmptyString => false
  end.

Fixpoint lastIs (P : ascii → bool) (s : string) : bool :=
  match s with
  | String c EmptyString => P c
  | String _ rest => lastIs P rest
  | EmptyString => false
  end.



(** The source of a tag chunk with the given name and arguments: between the
    markers (and their dashes, as for an object) come whitespace, the name,
    whitespace, the arguments and whitespace.  The name has no whitespace in
    it and is empty only when there is nothing but whitespace; the arguments
    neither start nor end with whitespace and are separated from the name by
    whitespace. *)
Definition tagLayout (source name parameters : string) : Prop :=
  ∃ ld lead ws trail rd,
    source = "{%" +:+ ld +:+ lead +:+ name +:+ ws +:+ parameters +:+ trail
             +:+ rd +:+ "%}" ∧
    dash ld ∧ dash rd ∧
    (ld = "" →
     firstIs isDash (lead +:+ name +:+ ws +:+ parameters +:+ trail +:+ rd)
     = false) ∧
    (rd = "" →
     lastIs isDash (lead +:+ name +:+ ws +:+ parameters +:+ trail) = false) ∧
    blank lead = true ∧ blank ws = true ∧ blank trail = true ∧
    spaceFree name = true ∧
    (name = "" → ws = "" ∧ parameters = "") ∧
    (ws = "" → parameters = "") ∧
    firstIs isSpace parameters = false ∧
    lastIs isSpace parameters = false.

End Chunks.

(** ** The registries that registration builds *)

Module Registries.
Import Expressions.

Section Registry.
Context {Context Expression : Type}.

(** What [DefineFilter] lets into [filters]: a function with at least one
    input and at most two outputs. *)
Definition registrable (fn : Value Context Expression) : Prop :=
  ∃ t code, fn = VFunc t code ∧ 1 ≤ NumIn t ∧ NumOut t ≤ 2.

Definition validRegistry (filters : gmap string (Value Context Expression))
    : Prop :=
  ∀ name fn, filters !! name = Some fn → registrable fn.

End Registry.

End Registries.

(* ===================================================================== *)
(** * Part II: properties *)
(* ===================================================================== *)

(** ** Filter registration and dispatch *)

Import Expressions.

Section DispatchFacts.
Context {Context Expression : Type} `{!Host Context Expression}.

Local Abbreviation Value := (Value Context Expression).
Local Abbreviation valueFn := (@valueFn Context Expression).

Implicit Types (filters : gmap string Value) (fn v a : Value).
Implicit Types (f param : valueFn) (params : list valueFn).
Implicit Types (args : list Value) (ctx : Context) (p : PanicValue).

(** *** The handler *)

Lemma recoverFilter_ret (r : Outcome Value) v : recoverFilter r = Ret v ↔ r = Ret v.
Proof.
  destruct r as [w|[]]; simpl; split; intros E; try discriminate E; exact E.
Qed.

Lemma recoverFilter_generic msg :
  recoverFilter (Panic (A:=Value) (GenericError msg)) =
  Panic (InterpreterError msg).
Proof. reflexivity. Qed.

Lemma recoverFilter_other p :
  isGenericError p = false → recoverFilter (Panic (A:=Value) p) = Panic p.
Proof. destruct p; simpl; intros E; try reflexivity; discriminate E. Qed.

(** The handler never lets a generic error out. *)
Lemma recoverFilter_no_generic (r : Outcome Value) msg :
  recoverFilter r ≠ Panic (GenericError msg).
Proof. destruct r as [w|[]]; simpl; discriminate. Qed.

(** *** The loop over the parameters *)

Lemma evalParams_app fn ctx params1 params2 : ∀ i args,
  evalParams fn ctx i (params1 ++ params2) args =
  (args1 ← evalParams fn ctx i params1 args;
   evalParams fn ctx (i + length params1) params2 args1).
Proof.
  induction params1 as [|param params1 IH]; intros i args; simpl.
  - by rewrite Nat.add_0_r.
  - destruct (evalParam fn ctx i param) as [a|p]; simpl; [|done].
    rewrite IH. by replace (S i + length params1) with (i + S (length params1)) by lia.
Qed.

(** A run of the loop that completes has appended one argument per
    parameter, each the result of its iteration. *)
Lemma evalParams_ret fn ctx params : ∀ i args args',
  evalParams fn ctx i params args = Ret args' →
  ∃ new, args' = args ++ new ∧ length new = length params ∧
    ∀ k param, params !! k = Some param →
      ∃ a, new !! k = Some a ∧ evalParam fn ctx (i + k) param = Ret a.
Proof.
  induction params as [|param0 params IH]; intros i args args' E; simpl in E.
  - injection E as <-. exists []. rewrite app_nil_r. split_and!; try done.
  - destruct (evalParam fn ctx i param0) as [a0|p] eqn:E0; simpl in E; [|done].
    apply IH in E as (new & -> & Hlen & Hnew).
    exists (a0 :: new). rewrite <- app_assoc. split_and!; simpl; try done.
    + by rewrite Hlen.
    + intros [|k] param Hk; simpl in *.
      * injection Hk as <-. exists a0. by rewrite Nat.add_0_r.
      * destruct (Hnew k param Hk) as (a & Ha & Hev). exists a.
        split; [done|]. by replace (i + S k) with (S i + k) by lia.
Qed.

Lemma closureParam_true t i ty :
  InType t (i + 1) = Some ty → isClosureInterfaceType ty = true →
  closureParam t i = true.
Proof.
  intros Hty Hc. unfold closureParam. rewrite Hty, Hc, andb_true_r.
  apply Nat.ltb_lt. unfold InType in Hty. unfold NumIn.
  by apply lookup_lt_Some in Hty.
Qed.

(** The iteration for a parameter of closure type: the argument is
    evaluated, asserted to be a string, parsed, and bound with [ctx]. *)
Lemma evalParam_closure t code ctx i param :
  closureParam t i = true →
  evalParam (VFunc t code) ctx i param =
  (w ← param ctx; s ← assertString w;
   match Parse s with
   | inr err => Panic err
   | inl expr => Ret (VClosure expr ctx)
   end).
Proof. intros Hc. unfold evalParam. simpl. by rewrite Hc. Qed.

Lemma evalParam_closure_ret t code ctx i param a :
  closureParam t i = true →
  evalParam (VFunc t code) ctx i param = Ret a →
  ∃ s expr, param ctx = Ret (VString s) ∧ Parse s = inl expr ∧
            a = VClosure expr ctx.
Proof.
  intros Hc. rewrite evalParam_closure by done.
  destruct (param ctx) as [w|p]; simpl; [|done].
  destruct w; simpl; try done.
  destruct (Parse s) as [expr|err] eqn:EP; [|done].
  intros [= <-]. by exists s, expr.
Qed.

Lemma makeFilter_registered filters f name params fn :
  filters !! name = Some fn →
  makeFilter filters f name params =
  Ret (λ ctx, recoverFilter (filterBody fn f params ctx)).
Proof. intros E. unfold makeFilter. by rewrite E. Qed.

Lemma filterBody_call fn f params ctx v args :
  f ctx = Ret v → evalParams fn ctx 0 params [v] = Ret args →
  filterBody fn f params ctx = callOutcome (Call fn args).
Proof. intros Ef Ea. unfold filterBody. rewrite Ef. simpl. by rewrite Ea. Qed.

(** *** Registration *)

(** C9. Registration panics whenever the callable is not a function, has
    no input parameter, or has more than two outputs.  Any other callable
    is stored under the given name: looking the name up afterwards yields
    the callable, whatever was registered under it before, and the other
    names keep their filters. *)
Theorem DefineFilter_spec name fn filters :
  ((∀ t code, fn ≠ VFunc t code) →
     ∃ p, DefineFilter name fn filters = Panic p) ∧
  (∀ t code, fn = VFunc t code → NumIn t < 1 ∨ 2 < NumOut t →
     ∃ p, DefineFilter name fn filters = Panic p) ∧
  (∀ t code, fn = VFunc t code → 1 ≤ NumIn t → NumOut t ≤ 2 →
     ∃ filters', DefineFilter name fn filters = Ret filters' ∧
       filters' !! name = Some fn ∧
       ∀ other, other ≠ name → filters' !! other = filters !! other).
Proof.
  split_and!.
  - intros Hnf. destruct fn; simpl; eauto. by destruct (Hnf t code).
  - intros t code -> Hbad. simpl.
    destruct (Nat.ltb_spec (NumIn t) 1); [eauto|].
    destruct (Nat.ltb_spec 2 (NumOut t)); [eauto|lia].
  - intros t code -> Hin Hout. simpl.
    destruct (Nat.ltb_spec (NumIn t) 1); [lia|].
    destruct (Nat.ltb_spec 2 (NumOut t)); [lia|].
    eexists. split; [done|]. split.
    + apply lookup_insert_eq.
    + intros other Hne. by apply lookup_insert_ne.
Qed.

(** *** Lookup *)

(** C3, as the code has it.  When no filter is registered under the name,
    [makeFilter] itself panics with [UndefinedFilter name]: the panic
    happens while the filter application is built, no evaluation function
    is returned, and no context is involved.  An evaluation function is
    returned only for a registered name. *)
Theorem makeFilter_undefined filters f name params :
  (filters !! name = None →
     makeFilter filters f name params = Panic (UndefinedFilter name)) ∧
  (∀ vf, makeFilter filters f name params = Ret vf →
     is_Some (filters !! name)).
Proof.
  unfold makeFilter. destruct (filters !! name) as [fn|]; split; done.
Qed.

(** *** Errors of an invocation *)

(** C2. A panic with a generic error during the invocation of a filter
    leaves the returned function as a panic with [InterpreterError] of the
    same message; a panic with any other value leaves it unchanged.  This
    holds for the whole invocation and in particular for the filter body,
    whether it returns the error or panics with it. *)
Theorem makeFilter_recovers filters f name params fn ctx :
  filters !! name = Some fn →
  ∃ vf, makeFilter filters f name params = Ret vf ∧
    (∀ msg, filterBody fn f params ctx = Panic (GenericError msg) →
       vf ctx = Panic (InterpreterError msg)) ∧
    (∀ p, filterBody fn f params ctx = Panic p → isGenericError p = false →
       vf ctx = Panic p) ∧
    (∀ v args, f ctx = Ret v → evalParams fn ctx 0 params [v] = Ret args →
       (∀ msg, Call fn args = CallErr (GenericError msg) ∨
               Call fn args = CallPanic (GenericError msg) →
          vf ctx = Panic (InterpreterError msg)) ∧
       (∀ p, Call fn args = CallErr p ∨ Call fn args = CallPanic p →
          isGenericError p = false → vf ctx = Panic p)).
Proof.
  intros Hfn. eexists. split; [by apply makeFilter_registered|].
  split_and!.
  - intros msg ->. apply recoverFilter_generic.
  - intros p -> Hp. by apply recoverFilter_other.
  - intros v args Ef Ea. rewrite (filterBody_call _ _ _ _ _ _ Ef Ea). split.
    + intros msg [-> | ->]; apply recoverFilter_generic.
    + intros p [-> | ->] Hp; by apply recoverFilter_other.
Qed.

(** *** The returned value *)

(** C6. When the filter returns a byte sequence, the invocation returns
    the string made of these bytes; any other returned value is returned
    as it is. *)
Theorem makeFilter_converts_bytes filters f name params fn ctx v args out :
  filters !! name = Some fn →
  f ctx = Ret v →
  evalParams fn ctx 0 params [v] = Ret args →
  Call fn args = CallOut out →
  ∃ vf, makeFilter filters f name params = Ret vf ∧
    (∀ b, out = VBytes b →
       ∃ s, vf ctx = Ret (VString s) ∧ String.list_byte_of_string s = b) ∧
    ((∀ b, out ≠ VBytes b) → vf ctx = Ret out).
Proof.
  intros Hfn Ef Ea Ec. eexists. split; [by apply makeFilter_registered|].
  cbv beta. rewrite (filterBody_call _ _ _ _ _ _ Ef Ea), Ec. simpl. split.
  - intros b ->. eexists. split; [done|].
    apply String.list_byte_of_string_of_list_byte.
  - intros Hnb. destruct out; try done. by destruct (Hnb b).
Qed.

(** *** Closure arguments *)

(** C1, as the code has it.  For a parameter of closure type, in an
    invocation that reaches the filter, the argument expression has been
    evaluated to a string, that string has been parsed, and the argument
    handed to the filter at that position is the closure of the parsed
    expression and the current context. *)
Theorem makeFilter_closure_argument
    filters f name params t code ty i param ctx v args :
  filters !! name = Some (VFunc t code) →
  InType t (i + 1) = Some ty →
  isClosureInterfaceType ty = true →
  params !! i = Some param →
  f ctx = Ret v →
  evalParams (VFunc t code) ctx 0 params [v] = Ret args →
  ∃ s expr vf,
    param ctx = Ret (VString s) ∧
    Parse s = inl expr ∧
    args !! (S i) = Some (VClosure expr ctx) ∧
    makeFilter filters f name params = Ret vf ∧
    vf ctx = recoverFilter (callOutcome (Call (VFunc t code) args)).
Proof.
  intros Hfn Hty Hc Hi Ef Ea.
  destruct (evalParams_ret _ _ _ _ _ _ Ea) as (new & -> & _ & Hnew).
  destruct (Hnew i param Hi) as (a & Ha & Hev). simpl in Hev.
  apply evalParam_closure_ret in Hev as (s & expr & Hs & HP & ->);
    [|by eapply closureParam_true].
  exists s, expr,
    (λ ctx, recoverFilter (filterBody (VFunc t code) f params ctx)).
  split_and!; try done.
  - by apply makeFilter_registered.
  - by rewrite (filterBody_call _ _ _ _ _ _ Ef Ea).
Qed.

(** C10. For a parameter of closure type whose earlier arguments have been
    evaluated, the argument expression is evaluated first: a panic of it
    that is not a generic error comes out unchanged; a value that is not a
    string makes the invocation panic with the runtime's type assertion
    error; a string that does not parse makes it panic with the parser's
    error, unchanged as long as that error is not a generic error.  None
    of these becomes an [InterpreterError]. *)
Theorem makeFilter_closure_failures
    filters f name params1 param params2 t code ty ctx v args1 :
  filters !! name = Some (VFunc t code) →
  InType t (length params1 + 1) = Some ty →
  isClosureInterfaceType ty = true →
  f ctx = Ret v →
  evalParams (VFunc t code) ctx 0 params1 [v] = Ret args1 →
  ∃ vf, makeFilter filters f name (params1 ++ param :: params2) = Ret vf ∧
    (∀ p, param ctx = Panic p → isGenericError p = false →
       vf ctx = Panic p) ∧
    (∀ w, param ctx = Ret w → (∀ s, w ≠ VString s) →
       vf ctx = Panic TypeAssertionError) ∧
    (∀ s err, param ctx = Ret (VString s) → Parse s = inr err →
       isGenericError err = false → vf ctx = Panic err).
Proof.
  intros Hfn Hty Hc Ef E1.
  eexists. split; [by apply makeFilter_registered|].
  assert (Hbody : filterBody (VFunc t code) f (params1 ++ param :: params2)
                    ctx =
                  (a ← evalParam (VFunc t code) ctx (length params1) param;
                   args ← evalParams (VFunc t code) ctx (S (length params1))
                            params2 (args1 ++ [a]);
                   callOutcome (Call (VFunc t code) args))).
  { unfold filterBody. rewrite Ef. simpl. rewrite evalParams_app, E1. simpl.
    by destruct (evalParam _ _ _ _). }
  cbv beta. rewrite Hbody, evalParam_closure by (by eapply closureParam_true).
  split_and!.
  - intros p -> Hp. simpl. by apply recoverFilter_other.
  - intros w -> Hw. simpl. destruct w; try done. by destruct (Hw s).
  - intros s err -> HP Hp. simpl. rewrite HP. by apply recoverFilter_other.
Qed.

End DispatchFacts.

(** ** Dispatch over the call of the specification *)

Section SpecDispatchFacts.
Context {Context Expression : Type} `{!FilterSignatures Context Expression}.
Context (parse : string → Expression + PanicValue).
Context (convertibleTo : GoType → GoType → bool).

Local Abbreviation Value := (Value Context Expression).
Local Abbreviation valueFn := (@valueFn Context Expression).
Local Abbreviation host := (SpecHost parse convertibleTo).

(** C5. With the call of the specification, an invocation whose arguments
    have been evaluated fails with [FilterArityError] when their number is
    below the required count or above the required plus optional count;
    within these bounds the outcome is that of the coerced call of the
    filter, and the dispatcher adds no arity error. *)
Theorem makeFilter_arity
    (filters : gmap string Value) (f : valueFn) name (params : list valueFn)
    t code ctx (v : Value) (args : list Value) :
  filters !! name = Some (VFunc t code) →
  f ctx = Ret v →
  evalParams (Host0 := host) (VFunc t code) ctx 0 params [v] = Ret args →
  ∃ vf, makeFilter (Host0 := host) filters f name params = Ret vf ∧
    (length params < requiredParams (VFunc t code) ∨
     requiredParams (VFunc t code) + optionalParams (VFunc t code)
       < length params →
     vf ctx = Panic FilterArityError) ∧
    (requiredParams (VFunc t code) ≤ length params ∧
     length params
       ≤ requiredParams (VFunc t code) + optionalParams (VFunc t code) →
     vf ctx =
     recoverFilter
       (callOutcome (invoke (VFunc t code) (zip_with coerce (Ins t) args)))).
Proof.
  intros Hfn Ef Ea.
  destruct (evalParams_ret _ _ _ _ _ _ Ea) as (new & -> & Hlen & _).
  eexists. split; [by apply makeFilter_registered|]. cbv beta.
  rewrite (filterBody_call _ _ _ _ _ _ Ef Ea).
  change (Call (VFunc t code) ([v] ++ new))
    with (SpecCall (VFunc t code) ([v] ++ new)).
  unfold SpecCall.
  replace (length ([v] ++ new) - 1) with (length params)
    by (simpl; lia).
  split.
  - intros Hout.
    destruct (Nat.ltb_spec (length params) (requiredParams (VFunc t code)));
      [done|].
    destruct (Nat.ltb_spec
                (requiredParams (VFunc t code)
                 + optionalParams (VFunc t code)) (length params));
      [done|lia].
  - intros [Hlo Hhi].
    destruct (Nat.ltb_spec (length params) (requiredParams (VFunc t code)));
      [lia|].
    destruct (Nat.ltb_spec
                (requiredParams (VFunc t code)
                 + optionalParams (VFunc t code)) (length params));
      [lia|done].
Qed.

End SpecDispatchFacts.

(** ** Concrete runs *)

Section SampleRuns.
Import Sample.

Local Abbreviation Value := (Value Ctx Expr).

Lemma DefineFilter_spec_witness :
  (∃ p, DefineFilter "size" (VInt 3 : Value) registry = Panic p) ∧
  (∃ p, DefineFilter "size"
          (VFunc {| Ins := []; NumOut := 1 |} 0 : Value) registry
        = Panic p) ∧
  (∃ filters', DefineFilter "echo" (VFunc sortT 1) registry = Ret filters' ∧
     filters' !! "echo" = Some (VFunc sortT 1 : Value) ∧
     ∀ other, other ≠ "echo" → filters' !! other = registry !! other).
Proof.
  split_and!.
  - destruct (DefineFilter_spec "size" (VInt 3 : Value) registry)
      as (Hkind & _ & _).
    apply Hkind. discriminate.
  - destruct (DefineFilter_spec "size"
                (VFunc {| Ins := []; NumOut := 1 |} 0 : Value) registry)
      as (_ & Hbad & _).
    apply (Hbad {| Ins := []; NumOut := 1 |} 0).
    + reflexivity.
    + left. vm_compute. lia.
  - destruct (DefineFilter_spec "echo" (VFunc sortT 1 : Value) registry)
      as (_ & _ & Hgood).
    apply (Hgood sortT 1).
    + reflexivity.
    + vm_compute. lia.
    + vm_compute. lia.
Defined.

Lemma makeFilter_undefined_witness :
  (∅ : gmap string Value) !! "nope" = None ∧
  makeFilter ∅ input "nope" [var "k"] = Panic (UndefinedFilter "nope").
Proof.
  split; [reflexivity|].
  apply (makeFilter_undefined ∅ input "nope" [var "k"]). reflexivity.
Defined.

(** C3 as stated fails: for the unregistered name "nope" there is no
    evaluation function whose invocation would raise the error; the error
    is already the outcome of building the filter application. *)
Lemma undefined_filter_not_raised_by_evaluation :
  ¬ ∃ vf, makeFilter (∅ : gmap string Value) input "nope" [] = Ret vf ∧
          ∀ ctx, vf ctx = Panic (UndefinedFilter "nope").
Proof. intros (vf & E & _). vm_compute in E. discriminate E. Qed.

Lemma makeFilter_recovers_witness :
  (∃ vf, makeFilter registry input "fail" [] = Ret vf ∧
         vf [] = Panic (InterpreterError "division by zero")) ∧
  (∃ vf, makeFilter registry input "crash" [] = Ret vf ∧
         vf [] = Panic (OtherPanic "nil pointer dereference")).
Proof.
  split.
  - destruct (makeFilter_recovers registry input "fail" [] (VFunc echoT 2) [])
      as (vf & Hvf & _ & _ & Hcall); [vm_compute; reflexivity|].
    exists vf. split; [exact Hvf|].
    destruct (Hcall (VInt 7) [VInt 7]) as [Hgen _];
      [reflexivity|reflexivity|].
    apply Hgen. left. reflexivity.
  - destruct (makeFilter_recovers registry input "crash" [] (VFunc echoT 3) [])
      as (vf & Hvf & _ & Hother & _); [vm_compute; reflexivity|].
    exists vf. split; [exact Hvf|].
    apply Hother; reflexivity.
Defined.

Lemma makeFilter_converts_bytes_witness :
  ∃ vf, makeFilter registry input "bytes" [] = Ret vf ∧
        vf [] = Ret (VString "hi").
Proof.
  destruct (makeFilter_converts_bytes registry input "bytes" []
              (VFunc echoT 4) [] (VInt 7) [VInt 7]
              (VBytes [Byte.x68; Byte.x69]))
    as (vf & Hvf & Hbytes & _);
    [vm_compute; reflexivity|reflexivity|reflexivity|reflexivity|].
  exists vf. split; [exact Hvf|].
  destruct (Hbytes _ eq_refl) as (s & Hs & Hb).
  rewrite Hs. f_equal. f_equal.
  rewrite <- (String.string_of_list_byte_of_string s), Hb. reflexivity.
Defined.

Lemma makeFilter_closure_argument_witness :
  ∃ vf, makeFilter registry input "sort" [var "k"] = Ret vf ∧
        vf [("k", "weight")]
        = Ret (VClosure "weight" [("k", "weight")]).
Proof.
  destruct (makeFilter_closure_argument registry input "sort" [var "k"]
              sortT 1 TClosure 0 (var "k") [("k", "weight")] (VInt 7)
              [VInt 7; VClosure "weight" [("k", "weight")]])
    as (s & expr & vf & _ & _ & _ & Hvf & Hrun);
    [vm_compute; reflexivity| reflexivity | reflexivity | reflexivity
    | reflexivity | vm_compute; reflexivity |].
  exists vf. split; [exact Hvf|]. rewrite Hrun. reflexivity.
Defined.

(** C1 as stated fails.  The filter "sort" of the sample registry returns
    the closure it receives for its argument.  The argument [k] is one and
    the same source text in every context, yet the parsed expression in the
    closure is the value [k] has in the context, and where that value is
    not a string the invocation panics: the argument is evaluated. *)
Lemma closure_argument_is_evaluated :
  ∃ vf, makeFilter registry input "sort" [var "k"] = Ret vf ∧
    vf [("k", "weight")] = Ret (VClosure "weight" [("k", "weight")]) ∧
    vf [("k", "price")] = Ret (VClosure "price" [("k", "price")]) ∧
    vf [] = Panic TypeAssertionError ∧
    ¬ ∃ expr, ∀ ctx, vf ctx = Ret (VClosure expr ctx).
Proof.
  eexists. split; [vm_compute; reflexivity|].
  split_and!; try (vm_compute; reflexivity).
  intros (expr & H). specialize (H []). vm_compute in H. discriminate H.
Qed.

Lemma makeFilter_closure_failures_witness :
  ∃ vf, makeFilter registry input "sort" [var "k"] = Ret vf ∧
        vf [] = Panic TypeAssertionError ∧
        vf [("k", "")] = Panic (OtherPanic "parse error").
Proof.
  destruct (makeFilter_closure_failures registry input "sort"
              [] (var "k") [] sortT 1 TClosure [] (VInt 7) [VInt 7])
    as (vf & Hvf & _ & Hty & _);
    [vm_compute; reflexivity| reflexivity | reflexivity | reflexivity
    | reflexivity |].
  destruct (makeFilter_closure_failures registry input "sort"
              [] (var "k") [] sortT 1 TClosure [("k", "")] (VInt 7)
              [VInt 7])
    as (vf' & Hvf' & _ & _ & Hparse);
    [vm_compute; reflexivity| reflexivity | reflexivity | reflexivity
    | reflexivity |].
  exists vf. split; [exact Hvf|]. split.
  - apply (Hty VNil); [reflexivity|discriminate].
  - rewrite Hvf in Hvf'. injection Hvf' as <-.
    apply (Hparse "" (OtherPanic "parse error")); reflexivity.
Defined.

Lemma makeFilter_arity_witness :
  ∃ vf vf',
    makeFilter (Host0 := specHost) sliceRegistry input "slice" [] = Ret vf ∧
    vf [] = Panic FilterArityError ∧
    makeFilter (Host0 := specHost) sliceRegistry input "slice" [input]
    = Ret vf' ∧
    vf' [] = Ret (VInt 7).
Proof.
  destruct (makeFilter_arity parse convertibleTo sliceRegistry input "slice" []
              sliceT 0 [] (VInt 7) [VInt 7])
    as (vf & Hvf & Hout & _);
    [vm_compute; reflexivity| reflexivity | reflexivity |].
  destruct (makeFilter_arity parse convertibleTo sliceRegistry input "slice"
              [input] sliceT 0 [] (VInt 7) [VInt 7; VInt 7])
    as (vf' & Hvf' & _ & Hin);
    [vm_compute; reflexivity| reflexivity | reflexivity |].
  exists vf, vf'. split_and!; [exact Hvf| |exact Hvf'|].
  - apply Hout. left. vm_compute. lia.
  - rewrite Hin; [reflexivity|]. vm_compute. lia.
Defined.

End SampleRuns.

(** ** Chunks *)

Import Chunks.

Section StringFacts.

Lemma app_cons c s t : String c s +:+ t = String c (s +:+ t).
Proof. reflexivity. Qed.

Lemma app_empty_r s : s +:+ "" = s.
Proof. induction s as [|c s IH]; [done|]. by rewrite app_cons, IH. Qed.

Lemma app_assoc3 s t u : (s +:+ t) +:+ u = s +:+ t +:+ u.
Proof. induction s as [|c s IH]; [done|]. by rewrite !app_cons, IH. Qed.

Lemma spaces_skipSpace s : s = spaces s +:+ skipSpace s.
Proof.
  induction s as [|c s IH]; simpl; [done|].
  destruct (isSpace c); [|done]. by rewrite app_cons, <- IH.
Qed.

Lemma blank_spaces s : blank (spaces s) = true.
Proof.
  induction s as [|c s IH]; simpl; [done|].
  destruct (isSpace c) eqn:Hc; simpl; [|done]. by rewrite Hc, IH.
Qed.

Lemma word_afterWord s : s = word s +:+ afterWord s.
Proof.
  induction s as [|c s IH]; simpl; [done|].
  destruct (isSpace c); [done|]. by rewrite app_cons, <- IH.
Qed.

Lemma spaceFree_word s : spaceFree (word s) = true.
Proof.
  induction s as [|c s IH]; simpl; [done|].
  destruct (isSpace c) eqn:Hc; simpl; [done|]. by rewrite Hc, IH.
Qed.

(** What follows the first word is empty or starts with whitespace. *)
Lemma spaces_afterWord s : spaces (afterWord s) = "" → afterWord s = "".
Proof.
  induction s as [|c s IH]; simpl; [done|].
  destruct (isSpace c) eqn:Hc; [|done]. simpl. by rewrite Hc.
Qed.

Lemma trimRight_blank s : ∃ trail, s = trimRight s +:+ trail ∧ blank trail = true.
Proof.
  induction s as [|c s (trail & IH & Hb)]; simpl; [by exists ""|].
  destruct (trimRight s) as [|c' r] eqn:Er.
  - destruct (isSpace c) eqn:Hc.
    + exists (String c trail). simpl. rewrite Hc, Hb. split; [|done].
      by rewrite IH at 1.
    + exists trail. split; [|done]. rewrite app_cons. by rewrite IH at 1.
  - exists trail. split; [|done]. rewrite !app_cons. rewrite IH at 1.
    by rewrite app_cons.
Qed.

Lemma leftDash_dropLeftDash s : s = leftDash s +:+ dropLeftDash s.
Proof.
  destruct s as [|c s]; simpl; [done|].
  case_bool_decide as Hc; [|done]. by rewrite Hc.
Qed.

Lemma dropRightDash_rightDash s : s = dropRightDash s +:+ rightDash s.
Proof.
  induction s as [|c s IH]; [done|].
  destruct s as [|c' s'].
  - simpl. case_bool_decide as Hc; [by rewrite Hc|done].
  - change (dropRightDash (String c (String c' s')))
      with (String c (dropRightDash (String c' s'))).
    change (rightDash (String c (String c' s')))
      with (rightDash (String c' s')).
    by rewrite app_cons, <- IH.
Qed.

Lemma dash_leftDash s : dash (leftDash s).
Proof.
  destruct s as [|c s]; simpl; [by left|]. case_bool_decide; [by right|by left].
Qed.

Lemma dash_rightDash s : dash (rightDash s).
Proof.
  induction s as [|c s IH]; [by left|].
  destruct s as [|c' s']; [|exact IH].
  simpl. case_bool_decide; [by right|by left].
Qed.

End StringFacts.

Section LayoutFacts.


Lemma app_cancel_r s1 : ∀ s2 t, s1 +:+ t = s2 +:+ t → s1 = s2.
Proof.
  assert (Hlen : ∀ a b, String.length (a +:+ b)
                        = String.length a + String.length b).
  { intros a b. induction a as [|c a IH]; [done|].
    rewrite app_cons. simpl. by rewrite IH. }
  induction s1 as [|c s1 IH]; intros s2 t E.
  - destruct s2 as [|c2 s2]; [done|]. apply (f_equal String.length) in E.
    rewrite !Hlen in E. simpl in E. lia.
  - destruct s2 as [|c2 s2].
    + apply (f_equal String.length) in E. rewrite !Hlen in E. simpl in E. lia.
    + rewrite !app_cons in E. injection E as -> E. f_equal. by eapply IH.
Qed.


Lemma firstIs_skipSpace s : firstIs isSpace (skipSpace s) = false.
Proof.
  induction s as [|c s IH]; simpl; [done|].
  destruct (isSpace c) eqn:Hc; [done|]. simpl. exact Hc.
Qed.

Lemma skipSpace_plain s : firstIs isSpace s = false → skipSpace s = s.
Proof. destruct s as [|c s]; simpl; [done|]. by intros ->. Qed.

Lemma skipSpace_blank_app l x : blank l = true → skipSpace (l +:+ x) = skipSpace x.
Proof.
  induction l as [|c l IH]; [done|]. intros Hl. simpl in Hl.
  apply andb_prop in Hl as [Hc Hl]. rewrite app_cons. simpl. rewrite Hc.
  by apply IH.
Qed.

Lemma skipSpace_blank l : blank l = true → skipSpace l = "".
Proof.
  intros Hl. rewrite <- (app_empty_r l). by rewrite skipSpace_blank_app.
Qed.

Lemma blank_first t : blank t = true → t = "" ∨ firstIs isSpace t = true.
Proof.
  destruct t as [|c t]; simpl; [by left|]. intros [Hc _]%andb_prop. by right.
Qed.

Lemma word_app n rest :
  spaceFree n = true → rest = "" ∨ firstIs isSpace rest = true →
  word (n +:+ rest) = n ∧ afterWord (n +:+ rest) = rest.
Proof.
  intros Hn Hrest. induction n as [|c n IH].
  - destruct Hrest as [->|Hrest]; [done|].
    destruct rest as [|d rest]; [done|]. simpl in *. by rewrite Hrest.
  - simpl in Hn. apply andb_prop in Hn as [Hc Hn]. rewrite app_cons. simpl.
    apply negb_true_iff in Hc. rewrite Hc.
    destruct (IH Hn) as [-> ->]. done.
Qed.

Lemma word_empty x : firstIs isSpace x = false → word x = "" → x = "".
Proof.
  destruct x as [|c x]; simpl; [done|]. intros ->. done.
Qed.

Lemma trimRight_blank_all t : blank t = true → trimRight t = "".
Proof.
  induction t as [|c t IH]; [done|]. simpl. intros [Hc Ht]%andb_prop.
  by rewrite IH, Hc.
Qed.

Lemma lastIs_cons P c s : s ≠ "" → lastIs P (String c s) = lastIs P s.
Proof. by destruct s. Qed.

Lemma trimRight_app p : ∀ t, blank t = true → lastIs isSpace p = false →
  trimRight (p +:+ t) = p.
Proof.
  induction p as [|c p IH]; intros t Ht Hp.
  - by apply trimRight_blank_all.
  - rewrite app_cons. simpl. destruct p as [|d p].
    + simpl in Hp. change ("" +:+ t) with t. rewrite trimRight_blank_all by done.
      by rewrite Hp.
    + rewrite lastIs_cons in Hp by done. rewrite IH by done. done.
Qed.

Lemma firstIs_trimRight y :
  firstIs isSpace y = false → firstIs isSpace (trimRight y) = false.
Proof.
  destruct y as [|c y]; simpl; [done|]. intros Hc.
  destruct (trimRight y); simpl; [by rewrite Hc|done].
Qed.

Lemma lastIs_trimRight y : lastIs isSpace (trimRight y) = false.
Proof.
  induction y as [|c y IH]; [done|]. simpl.
  destruct (trimRight y) as [|d r] eqn:E.
  - destruct (isSpace c) eqn:Hc; [done|]. simpl. exact Hc.
  - by rewrite lastIs_cons.
Qed.

Lemma firstIs_leftDash s : leftDash s = "" → firstIs isDash s = false.
Proof.
  destruct s as [|c s]; simpl; [done|]. unfold isDash.
  by case_bool_decide.
Qed.

Lemma lastIs_rightDash s : rightDash s = "" → lastIs isDash (dropRightDash s) = false.
Proof.
  induction s as [|c s IH]; [done|]. destruct s as [|d s].
  - simpl. unfold isDash. case_bool_decide; [done|]. simpl. unfold isDash.
    by rewrite bool_decide_eq_false_2.
  - change (rightDash (String c (String d s))) with (rightDash (String d s)).
    change (dropRightDash (String c (String d s)))
      with (String c (dropRightDash (String d s))).
    intros Hr. specialize (IH Hr).
    destruct (dropRightDash (String d s)) as [|e r] eqn:E.
    + (* the rest was a lone dash: contradiction with Hr *)
      exfalso. clear IH. revert Hr E. generalize d. clear d.
      induction s as [|d' s IHs]; intros d Hr E.
      * simpl in *. case_bool_decide; done.
      * change (dropRightDash (String d (String d' s)))
          with (String d (dropRightDash (String d' s))) in E. done.
    + by rewrite lastIs_cons.
Qed.

Lemma dropLeftDash_app ld x :
  dash ld → (ld = "" → firstIs isDash x = false) → dropLeftDash (ld +:+ x) = x.
Proof.
  intros [->| ->] Hx.
  - specialize (Hx eq_refl). destruct x as [|c x]; [done|]. simpl in *.
    unfold isDash in Hx. by rewrite Hx.
  - done.
Qed.

Lemma dropRightDash_app b rd :
  dash rd → (rd = "" → lastIs isDash b = false) → dropRightDash (b +:+ rd) = b.
Proof.
  intros [->| ->] Hb.
  - specialize (Hb eq_refl). rewrite app_empty_r.
    induction b as [|c b IH]; [done|]. destruct b as [|d b].
    + simpl in *. unfold isDash in Hb. by rewrite Hb.
    + rewrite lastIs_cons in Hb by done.
      change (dropRightDash (String c (String d b)))
        with (String c (dropRightDash (String d b))). by rewrite IH.
  - clear Hb. induction b as [|c b IH]; [done|].
    rewrite app_cons. destruct b as [|d b].
    + done.
    + rewrite app_cons in *.
      change (dropRightDash (String c (String d (b +:+ "-"))))
        with (String c (dropRightDash (String d (b +:+ "-")))). by rewrite IH.
Qed.


(** The scanner's name and arguments of a tag lay its body out. *)
Lemma tagLayout_scanned interior :
  tagLayout (openMarker Tag +:+ interior +:+ closeMarker Tag)
            (tagName interior) (tagArguments interior).
Proof.
  unfold tagName, tagArguments, body.
  set (rest := dropLeftDash interior). set (b := dropRightDash rest).
  set (s1 := skipSpace b). set (aw := afterWord s1).
  destruct (trimRight_blank (skipSpace aw)) as (trail & Ht & Hb).
  assert (Hbody : b = spaces b +:+ word s1 +:+ spaces aw
                      +:+ trimRight (skipSpace aw) +:+ trail).
  { rewrite <- Ht. unfold aw. rewrite <- spaces_skipSpace, <- word_afterWord.
    apply spaces_skipSpace. }
  assert (Hrest : rest = spaces b +:+ word s1 +:+ spaces aw
                         +:+ trimRight (skipSpace aw) +:+ trail
                         +:+ rightDash rest).
  { rewrite (dropRightDash_rightDash rest) at 1. fold b.
    rewrite Hbody at 1. by rewrite !app_assoc3. }
  exists (leftDash interior), (spaces b), (spaces aw), trail, (rightDash rest).
  split_and!.
  - rewrite (leftDash_dropLeftDash interior) at 1. fold rest.
    rewrite Hrest at 1. simpl. by rewrite !app_assoc3.
  - apply dash_leftDash.
  - apply dash_rightDash.
  - intros Hld. rewrite <- Hrest.
    pose proof (leftDash_dropLeftDash interior) as Hi. rewrite Hld in Hi.
    change ("" +:+ dropLeftDash interior) with rest in Hi. rewrite <- Hi.
    by apply firstIs_leftDash.
  - intros Hrd. apply lastIs_rightDash in Hrd. fold b in Hrd.
    by rewrite Hbody in Hrd at 1.
  - apply blank_spaces.
  - apply blank_spaces.
  - exact Hb.
  - apply spaceFree_word.
  - intros Hw. apply word_empty in Hw; [|apply firstIs_skipSpace].
    unfold aw. by rewrite Hw.
  - intros Hws. unfold aw in *. by rewrite (spaces_afterWord _ Hws).
  - apply firstIs_trimRight, firstIs_skipSpace.
  - apply lastIs_trimRight.
Qed.


(** A layout leaves no choice: the name and the arguments are those the
    scanner computes from the interior. *)
Lemma tagLayout_computes interior name parameters :
  tagLayout (openMarker Tag +:+ interior +:+ closeMarker Tag) name parameters →
  name = tagName interior ∧ parameters = tagArguments interior.
Proof.
  intros (ld & lead & ws & trail & rd & HS & Hld & Hrd & Hfirst & Hlast &
          Hlead & Hws & Htrail & Hname & Hempty & Hsep & Hpf & Hpl).
  set (b := lead +:+ name +:+ ws +:+ parameters +:+ trail) in *.
  assert (interior = ld +:+ b +:+ rd) as ->.
  { apply (String.app_inj "{%") in HS. apply (app_cancel_r _ _ (closeMarker Tag)).
    rewrite HS. unfold b. by rewrite !app_assoc3. }
  assert (Hbody : body (ld +:+ b +:+ rd) = b).
  { unfold body. rewrite dropLeftDash_app; [|done|].
    - by apply dropRightDash_app.
    - intros E. specialize (Hfirst E). unfold b. by rewrite !app_assoc3. }
  unfold tagName, tagArguments. rewrite Hbody. unfold b.
  rewrite skipSpace_blank_app by done.
  destruct name as [|c name].
  - destruct (Hempty eq_refl) as [-> ->]. simpl.
    change ("" +:+ "" +:+ "" +:+ trail) with trail.
    by rewrite skipSpace_blank.
  - assert (firstIs isSpace (String c name +:+ ws +:+ parameters +:+ trail)
            = false) as Hn1.
    { simpl in *. apply andb_prop in Hname as [Hc _].
      by apply negb_true_iff in Hc. }
    rewrite skipSpace_plain by done.
    assert (ws +:+ parameters +:+ trail = ""
            ∨ firstIs isSpace (ws +:+ parameters +:+ trail) = true) as Hrest.
    { destruct ws as [|d ws].
      - rewrite (Hsep eq_refl). by apply blank_first.
      - right. simpl in *. by apply andb_prop in Hws as [Hd _]. }
    destruct (word_app _ _ Hname Hrest) as [-> ->]. split; [done|].
    rewrite skipSpace_blank_app by done.
    destruct parameters as [|d parameters].
    + change ("" +:+ trail) with trail. by rewrite skipSpace_blank.
    + rewrite skipSpace_plain by done. by rewrite trimRight_app.
Qed.


(** Two layouts of one source have the same name and arguments. *)
Lemma tagLayout_determined source name parameters name' parameters' :
  tagLayout source name parameters →
  tagLayout source name' parameters' →
  name' = name ∧ parameters' = parameters.
Proof.
  intros H1 H2.
  assert (∃ interior,
            source = openMarker Tag +:+ interior +:+ closeMarker Tag)
    as (interior & ->).
  { destruct H1 as (ld & lead & ws & trail & rd & -> & _).
    exists (ld +:+ lead +:+ name +:+ ws +:+ parameters +:+ trail +:+ rd).
    simpl. by rewrite !app_assoc3. }
  destruct (tagLayout_computes _ _ _ H1) as [-> ->].
  by destruct (tagLayout_computes _ _ _ H2) as [-> ->].
Qed.


End LayoutFacts.

Section ScanFacts.
Context (pathname : string).

Lemma sources_app l1 l2 : sources (l1 ++ l2) = sources l1 +:+ sources l2.
Proof.
  induction l1 as [|c l1 IH]; simpl; [done|]. by rewrite IH, app_assoc3.
Qed.

Lemma sources_textChunk line text :
  sources (textChunk pathname line text) = text.
Proof. destruct text; simpl; [done|]. by rewrite app_empty_r. Qed.

(** The input from the current position on is the rest of the chunk under
    way, its closing marker, and the sources of the chunks after it. *)
Lemma scanFrom_sources : ∀ n s, String.length s ≤ n →
  ∀ m line pending chunks,
    scanFrom pathname m line s = inr (pending, chunks) →
    s = pending +:+ closing m +:+ sources chunks.
Proof.
  induction n as [|n IH]; intros s Hn m line pending chunks E.
  { destruct s; [|simpl in Hn; lia]. destruct m; simpl in E; [|done].
    by injection E as <- <-. }
  destruct s as [|c rest]; simpl in Hn.
  { destruct m; simpl in E; [|done]. by injection E as <- <-. }
  assert (Hlit : ∀ m' pending chunks,
    match scanFrom pathname m' (nextLine line c) rest with
    | inl e => inl e
    | inr (pending, chunks) => inr (String c pending, chunks)
    end = inr (pending, chunks) → closing m' = closing m →
    String c rest = pending +:+ closing m +:+ sources chunks).
  { intros m' pending' chunks' E' Hm.
    destruct (scanFrom pathname m' _ rest) as [|[p cs]] eqn:E''; [done|].
    injection E' as <- <-. apply IH in E''; [|lia].
    rewrite app_cons. f_equal. by rewrite <- Hm. }
  destruct m as [|k opening [q|]]; simpl in E.
  - destruct rest as [|c2 rest']; [by eapply Hlit|].
    destruct (bool_decide (c = "{"%char) && bool_decide (c2 = "{"%char))
      eqn:Ho.
    { apply andb_prop in Ho
        as [->%bool_decide_eq_true ->%bool_decide_eq_true].
      destruct (scanFrom pathname (InMarkup Object line None) line rest')
        as [|[p cs]] eqn:E'; [done|]. injection E as <- <-.
      apply IH in E'; [|simpl in Hn; lia]. simpl.
      rewrite E', !app_assoc3. reflexivity. }
    destruct (bool_decide (c = "{"%char) && bool_decide (c2 = "%"%char))
      eqn:Ht.
    { apply andb_prop in Ht
        as [->%bool_decide_eq_true ->%bool_decide_eq_true].
      destruct (scanFrom pathname (InMarkup Tag line None) line rest')
        as [|[p cs]] eqn:E'; [done|]. injection E as <- <-.
      apply IH in E'; [|simpl in Hn; lia]. simpl.
      rewrite E', !app_assoc3. reflexivity. }
    by eapply Hlit.
  - by eapply Hlit.
  - destruct rest as [|c2 rest']; [by eapply Hlit|].
    destruct (bool_decide (c = closer k) && bool_decide (c2 = "}"%char))
      eqn:Hc.
    { apply andb_prop in Hc
        as [->%bool_decide_eq_true ->%bool_decide_eq_true].
      destruct (scanFrom pathname InText line rest') as [|[p cs]] eqn:E';
        [done|].
      injection E as <- <-. apply IH in E'; [|simpl in Hn; lia].
      rewrite sources_app, sources_textChunk. simpl in E'. by rewrite E'. }
    by eapply Hlit.
Qed.





Lemma newlines_closeMarker k : newlines (closeMarker k) = 0%Z.
Proof. by destruct k. Qed.

Lemma newlines_closing m : newlines (closing m) = 0%Z.
Proof. destruct m; [done|]. apply newlines_closeMarker. Qed.







Lemma isNewline_opener k : isNewline (opener k) = false.
Proof. by destruct k. Qed.




End ScanFacts.

Section ChunkFacts.

(** The scanner on small inputs: a closing marker inside a quoted string
    does not end the object, a tag is split into its name and arguments, and
    a markup that is not terminated is reported with the line it opens on. *)
Example Scan_quoted :
  Scan "{{ '}}' }}x" "t.liquid"
  = inr [ {| Chunk_Type := ObjChunkType;
             Chunk_SourceInfo := location "t.liquid" 1;
             Name := ""; Parameters := " '}}' ";
             Source := "{{ '}}' }}" |};
          {| Chunk_Type := TextChunkType;
             Chunk_SourceInfo := location "t.liquid" 1;
             Name := ""; Parameters := ""; Source := "x" |} ].
Proof. vm_compute. reflexivity. Qed.

Example Scan_tag :
  Scan "{% if 1 %}" "t.liquid"
  = inr [ {| Chunk_Type := TagChunkType;
             Chunk_SourceInfo := location "t.liquid" 1;
             Name := "if"; Parameters := "1";
             Source := "{% if 1 %}" |} ].
Proof. vm_compute. reflexivity. Qed.

Example Scan_unterminated :
  Scan ("a" +:+ String "010" "{{ b") "t.liquid"
  = inl (Unterminated Object (location "t.liquid" 2)).
Proof. vm_compute. reflexivity. Qed.

(** Whitespace control leaves the sources alone and shows in the text that
    the neighbours of a markup contribute. *)
Example visibleText_trimmed :
  ∃ a b c, Scan "a  {%- if -%}  b" "t.liquid" = inr [a; b; c] ∧
    Source a = "a  " ∧ visibleText None a (Some b) = "a" ∧
    Source c = "  b" ∧ visibleText (Some b) c None = "b".
Proof. do 3 eexists. split_and!; vm_compute; reflexivity. Qed.

(** C4. When the scanner succeeds on an input, the sources of the chunks
    it produces, concatenated in their order, are the input. *)
Theorem Scan_sources data pathname chunks :
  Scan data pathname = inr chunks → sources chunks = data.
Proof.
  unfold Scan.
  destruct (scanFrom pathname InText 1 data) as [|[text cs]] eqn:E; [done|].
  intros [= <-]. apply (scanFrom_sources _ _ _ (le_n _)) in E. simpl in E.
  by rewrite sources_app, sources_textChunk.
Qed.


(** The relation between the source and the fields of a tag leaves no room:
    an empty name does not fit a tag that has one. *)
Example tagLayout_not_empty_name : ¬ tagLayout "{% if 1 %}" "" "if 1".
Proof.
  intros H.
  destruct (tagLayout_determined _ _ _ _ _ (tagLayout_scanned " if 1 ") H)
    as [E _].
  discriminate E.
Qed.

(** The printed form of a chunk does not show its location. *)
Lemma Chunk_String_location `{Fmt} c loc :
  Chunk_String
    {| Chunk_Type := Chunk_Type c; Chunk_SourceInfo := loc;
       Name := Name c; Parameters := Parameters c; Source := Source c |}
  = Chunk_String c.
Proof. reflexivity. Qed.



Lemma Scan_sources_witness :
  ∃ chunks, Scan "Hello, {{ name }}!" "hello.liquid" = inr chunks ∧
            sources chunks = "Hello, {{ name }}!".
Proof.
  eexists. split; [vm_compute; reflexivity|].
  apply (Scan_sources "Hello, {{ name }}!" "hello.liquid").
  vm_compute; reflexivity.
Defined.



End ChunkFacts.


(** ** Further properties of registration and dispatch *)

Import Registries.

Section DispatchMore.
Context {Context Expression : Type} `{!Host Context Expression}.

Local Abbreviation Value := (Value Context Expression).
Local Abbreviation valueFn := (@valueFn Context Expression).

Implicit Types (filters : gmap string Value) (fn v a : Value).
Implicit Types (f param : valueFn) (params : list valueFn).
Implicit Types (args : list Value) (ctx : Context) (p : PanicValue).

(** The loop completes when every iteration does, with the arguments in the
    order of the parameters. *)
Lemma evalParams_complete fn ctx params : ∀ i acc new,
  length new = length params →
  (∀ k param, params !! k = Some param →
     ∃ a, new !! k = Some a ∧ evalParam fn ctx (i + k) param = Ret a) →
  evalParams fn ctx i params acc = Ret (acc ++ new).
Proof.
  induction params as [|param0 params IH]; intros i acc new Hlen Hnew.
  - destruct new; [|done]. simpl. by rewrite app_nil_r.
  - destruct new as [|a0 new]; [done|]. simpl.
    destruct (Hnew 0 param0 eq_refl) as (a & [= <-] & E0).
    rewrite Nat.add_0_r in E0. rewrite E0. simpl.
    rewrite (IH (S i) (acc ++ [a0]) new).
    + by rewrite <- app_assoc.
    + simpl in Hlen. lia.
    + intros k param Hk. destruct (Hnew (S k) param Hk) as (a & Ha & Ea).
      exists a. split; [done|]. by replace (S i + k) with (i + S k) by lia.
Qed.


Lemma evalParam_plain t code ctx i param :
  closureParam t i = false →
  evalParam (VFunc t code) ctx i param = param ctx.
Proof. intros Hc. unfold evalParam. simpl. by rewrite Hc. Qed.

Lemma closureParam_beyond t i : NumIn t ≤ i + 1 → closureParam t i = false.
Proof.
  intros Hle. unfold closureParam.
  destruct (Nat.ltb_spec (i + 1) (NumIn t)); [lia|done].
Qed.

Lemma closureParam_other t i ty :
  InType t (i + 1) = Some ty → isClosureInterfaceType ty = false →
  closureParam t i = false.
Proof. intros Hty Hc. unfold closureParam. by rewrite Hty, Hc, andb_false_r. Qed.

(** *** The arguments of the call *)

(** X1. When the input expression and every argument expression evaluate,
    and the strings for the closure parameters parse, the function is called
    with the input value followed by one argument per parameter, in the
    order of the parameters: the closure of the parsed string and the
    context for a closure parameter, the value itself for any other. *)
Theorem makeFilter_calls_with_arguments
    filters f name params t code ctx v (new : list Value) :
  filters !! name = Some (VFunc t code) →
  f ctx = Ret v →
  length new = length params →
  (∀ i param, params !! i = Some param →
     ∃ a, new !! i = Some a ∧
       if closureParam t i
       then ∃ s expr, param ctx = Ret (VString s) ∧ Parse s = inl expr ∧
                      a = VClosure expr ctx
       else param ctx = Ret a) →
  ∃ vf, makeFilter filters f name params = Ret vf ∧
    vf ctx = recoverFilter (callOutcome (Call (VFunc t code) (v :: new))).
Proof.
  intros Hfn Ef Hlen Hnew. eexists. split; [by apply makeFilter_registered|].
  cbv beta. rewrite (filterBody_call _ _ _ _ v ([v] ++ new)); [done..|].
  apply evalParams_complete; [done|]. intros k param Hk.
  destruct (Hnew k param Hk) as (a & Ha & Hev). exists a. split; [done|].
  simpl. destruct (closureParam t k) eqn:Hc.
  - destruct Hev as (s & expr & Es & EP & ->).
    rewrite evalParam_closure by done. rewrite Es. simpl. by rewrite EP.
  - by rewrite evalParam_plain.
Qed.

(** X2. In an invocation that reaches the call, nothing is dropped and
    nothing is added: the arguments are the input value and one argument per
    parameter.  A parameter beyond the inputs of the function, or whose
    input is not of closure type, has its argument expression evaluated and
    the value handed on as it is. *)
Theorem makeFilter_plain_arguments filters f name params t code ctx v args :
  filters !! name = Some (VFunc t code) →
  f ctx = Ret v →
  evalParams (VFunc t code) ctx 0 params [v] = Ret args →
  length args = S (length params) ∧
  args !! 0 = Some v ∧
  (∀ i param, params !! i = Some param →
     NumIn t ≤ i + 1 ∨
     (∃ ty, InType t (i + 1) = Some ty ∧ isClosureInterfaceType ty = false) →
     ∃ a, param ctx = Ret a ∧ args !! (S i) = Some a) ∧
  ∃ vf, makeFilter filters f name params = Ret vf ∧
    vf ctx = recoverFilter (callOutcome (Call (VFunc t code) args)).
Proof.
  intros Hfn Ef Ea.
  destruct (evalParams_ret _ _ _ _ _ _ Ea) as (new & -> & Hlen & Hnew).
  split_and!.
  - simpl. by rewrite Hlen.
  - done.
  - intros i param Hi Hplain. destruct (Hnew i param Hi) as (a & Ha & Hev).
    exists a. split; [|done]. simpl in Hev.
    rewrite evalParam_plain in Hev; [done|].
    destruct Hplain as [Hle|(ty & Hty & Hc)].
    + by apply closureParam_beyond.
    + by eapply closureParam_other.
  - eexists. split; [by apply makeFilter_registered|]. cbv beta.
    by rewrite (filterBody_call _ _ _ _ _ _ Ef Ea).
Qed.

(** *** Panics *)

(** X3. The first expression that panics decides the outcome.  A panic of
    the input expression is the panic of the invocation, whatever the
    arguments are; after an input and earlier arguments that evaluate, a
    panic of an argument expression is the panic of the invocation, whatever
    follows it.  In both cases the handler applies: a generic error comes out
    as an interpreter error, anything else as it is. *)
Theorem makeFilter_first_panic filters f name t code ctx p :
  filters !! name = Some (VFunc t code) →
  (∀ params, f ctx = Panic p →
     ∃ vf, makeFilter filters f name params = Ret vf ∧
           vf ctx = recoverFilter (Panic p)) ∧
  (∀ v params1 param params2 args1,
     f ctx = Ret v →
     evalParams (VFunc t code) ctx 0 params1 [v] = Ret args1 →
     param ctx = Panic p →
     ∃ vf, makeFilter filters f name (params1 ++ param :: params2) = Ret vf ∧
           vf ctx = recoverFilter (Panic p)).
Proof.
  intros Hfn. split.
  - intros params Ef. eexists. split; [by apply makeFilter_registered|].
    cbv beta. unfold filterBody. by rewrite Ef.
  - intros v params1 param params2 args1 Ef E1 Ep.
    eexists. split; [by apply makeFilter_registered|].
    cbv beta. unfold filterBody. rewrite Ef. simpl.
    rewrite evalParams_app, E1. simpl.
    assert (evalParam (VFunc t code) ctx (length params1) param = Panic p)
      as ->; [|done].
    unfold evalParam. simpl. rewrite Ep. by destruct (closureParam _ _).
Qed.

(** X4. No invocation of a filter ends in a panic with a generic error. *)
Theorem makeFilter_never_generic filters f name params vf ctx msg :
  makeFilter filters f name params = Ret vf →
  vf ctx ≠ Panic (GenericError msg).
Proof.
  unfold makeFilter. destruct (filters !! name) as [fn|]; [|done].
  intros [= <-]. apply recoverFilter_no_generic.
Qed.

(** X5. No invocation of a filter returns a byte sequence. *)
Theorem makeFilter_never_bytes filters f name params vf ctx b :
  makeFilter filters f name params = Ret vf →
  vf ctx ≠ Ret (VBytes b).
Proof.
  unfold makeFilter. destruct (filters !! name) as [fn|]; [|done].
  intros [= <-] E. apply (proj1 (recoverFilter_ret _ _)) in E.
  unfold filterBody in E.
  destruct (f ctx) as [v|]; simpl in E; [|done].
  destruct (evalParams fn ctx 0 params [v]) as [args|]; simpl in E; [|done].
  destruct (Call fn args) as [out| |]; simpl in E; [|done..].
  injection E as E. by destruct out.
Qed.

(** X6. An invocation returns exactly when the input expression and the
    arguments evaluate and the call returns a value without an error; what it
    returns is that value after the conversion of byte sequences. *)
Theorem makeFilter_returns filters f name params fn ctx r :
  filters !! name = Some fn →
  ∃ vf, makeFilter filters f name params = Ret vf ∧
    (vf ctx = Ret r ↔
     ∃ v args out, f ctx = Ret v ∧
       evalParams fn ctx 0 params [v] = Ret args ∧
       Call fn args = CallOut out ∧
       r = convertOut out).
Proof.
  intros Hfn. eexists. split; [by apply makeFilter_registered|]. cbv beta.
  rewrite recoverFilter_ret. unfold filterBody. split.
  - intros E. destruct (f ctx) as [v|]; simpl in E; [|done].
    destruct (evalParams fn ctx 0 params [v]) as [args|] eqn:Ea;
      simpl in E; [|done].
    destruct (Call fn args) as [out| |] eqn:Ec; simpl in E; [|done..].
    injection E as <-. by exists v, args, out.
  - intros (v & args & out & -> & Ea & Ec & ->). simpl.
    rewrite Ea. simpl. by rewrite Ec.
Qed.


(** *** Chains of filters *)

(** X8. In a chain [e | f1 | f2] the second filter takes the first as its
    input expression.  A panic of the first invocation is the panic of the
    second, unchanged; a value it returns is the first argument of the
    second call. *)
Theorem makeFilter_chain
    filters f name1 params1 name2 params2 vf1 fn2 ctx :
  makeFilter filters f name1 params1 = Ret vf1 →
  filters !! name2 = Some fn2 →
  ∃ vf2, makeFilter filters vf1 name2 params2 = Ret vf2 ∧
    (∀ p, vf1 ctx = Panic p → vf2 ctx = Panic p) ∧
    (∀ v args, vf1 ctx = Ret v →
       evalParams fn2 ctx 0 params2 [v] = Ret args →
       args !! 0 = Some v ∧
       vf2 ctx = recoverFilter (callOutcome (Call fn2 args))).
Proof.
  intros H1 H2. eexists. split; [by apply makeFilter_registered|]. split.
  - intros p E. cbv beta. unfold filterBody. rewrite E. simpl.
    apply recoverFilter_other. destruct p; try done.
    unfold makeFilter in H1. destruct (filters !! name1); [|done].
    injection H1 as <-. by apply recoverFilter_no_generic in E.
  - intros v args E Ea. split.
    + by destruct (evalParams_ret _ _ _ _ _ _ Ea) as (new & -> & _).
    + cbv beta. by rewrite (filterBody_call _ _ _ _ _ _ E Ea).
Qed.

(** *** Registration and dispatch together *)

(** X9. A filter that has been registered is found: building an application
    of its name does not panic, and an invocation that reaches the call
    calls the registered function. *)
Theorem DefineFilter_then_makeFilter name fn filters filters' f params :
  DefineFilter name fn filters = Ret filters' →
  ∃ vf, makeFilter filters' f name params = Ret vf ∧
    ∀ ctx v args, f ctx = Ret v →
      evalParams fn ctx 0 params [v] = Ret args →
      vf ctx = recoverFilter (callOutcome (Call fn args)).
Proof.
  intros Hdef.
  assert (filters' !! name = Some fn) as Hfn.
  { unfold DefineFilter in Hdef. destruct fn; try done.
    destruct (NumIn t <? 1); [done|]. destruct (2 <? NumOut t); [done|].
    injection Hdef as <-. apply lookup_insert_eq. }
  eexists. split; [by apply makeFilter_registered|].
  intros ctx v args Ef Ea. cbv beta.
  by rewrite (filterBody_call _ _ _ _ _ _ Ef Ea).
Qed.

(** X10. Dispatch on a name looks at the entry of that name only:
    registering a filter leaves the applications of every other name as they
    were, undefined ones included. *)
Theorem DefineFilter_other_name name fn filters filters' f other params :
  DefineFilter name fn filters = Ret filters' →
  other ≠ name →
  makeFilter filters' f other params = makeFilter filters f other params.
Proof.
  intros Hdef Hne. unfold DefineFilter in Hdef. destruct fn; try done.
  destruct (NumIn t <? 1); [done|]. destruct (2 <? NumOut t); [done|].
  injection Hdef as <-. unfold makeFilter. by rewrite lookup_insert_ne.
Qed.

(** X11. The last registration under a name wins: registering a second
    callable under the name of a first gives the registry that registering
    the second alone gives, and is rejected when that is. *)
Theorem DefineFilter_twice name fn1 fn2 filters filters1 :
  DefineFilter name fn1 filters = Ret filters1 →
  DefineFilter name fn2 filters1 = DefineFilter name fn2 filters.
Proof.
  intros Hdef. unfold DefineFilter in Hdef. destruct fn1; try done.
  destruct (NumIn t <? 1); [done|]. destruct (2 <? NumOut t); [done|].
  injection Hdef as <-. unfold DefineFilter. destruct fn2; try done.
  destruct (NumIn t0 <? 1); [done|]. destruct (2 <? NumOut t0); [done|].
  by rewrite insert_insert_eq.
Qed.

(** X12. Registrations under different names do not depend on their
    order. *)
Theorem DefineFilter_commute name1 fn1 name2 fn2 filters filters1 filters12 :
  name1 ≠ name2 →
  DefineFilter name1 fn1 filters = Ret filters1 →
  DefineFilter name2 fn2 filters1 = Ret filters12 →
  ∃ filters2, DefineFilter name2 fn2 filters = Ret filters2 ∧
              DefineFilter name1 fn1 filters2 = Ret filters12.
Proof.
  intros Hne H1 H2. unfold DefineFilter in *.
  destruct fn1 as [| | | | | |t1 c1|]; try done.
  destruct fn2 as [| | | | | |t2 c2|]; try done.
  destruct (NumIn t1 <? 1); [done|]. destruct (2 <? NumOut t1); [done|].
  destruct (NumIn t2 <? 1); [done|]. destruct (2 <? NumOut t2); [done|].
  injection H1 as <-. injection H2 as <-.
  eexists. split; [done|]. f_equal. by apply insert_insert_ne.
Qed.

Lemma validRegistry_empty : validRegistry (∅ : gmap string Value).
Proof. by intros n g Hg. Qed.

Lemma validRegistry_insert name fn filters :
  registrable fn → validRegistry filters →
  validRegistry (<[name := fn]> filters).
Proof.
  intros Hfn Hvalid n g Hg. destruct (decide (n = name)) as [->|Hne].
  - rewrite lookup_insert_eq in Hg. by injection Hg as <-.
  - rewrite lookup_insert_ne in Hg by done. by eapply Hvalid.
Qed.

(** X13. A successful registration keeps a registry of registrable
    functions so: starting from the empty registry, whatever a sequence of
    registrations builds holds functions with at least one input and at most
    two outputs, and nothing else. *)
Theorem DefineFilter_valid name fn filters filters' :
  validRegistry filters →
  DefineFilter name fn filters = Ret filters' →
  validRegistry filters'.
Proof.
  intros Hvalid Hdef.
  unfold DefineFilter in Hdef. destruct fn; try done.
  destruct (Nat.ltb_spec (NumIn t) 1); [done|].
  destruct (Nat.ltb_spec 2 (NumOut t)); [done|].
  injection Hdef as <-. apply validRegistry_insert; [|done].
  exists t, code. split_and!; [done|lia|lia].
Qed.

End DispatchMore.

(** ** Further concrete runs *)

Section SampleRunsMore.
Import Sample.

Local Abbreviation Value := (Value Ctx Expr).


Lemma makeFilter_calls_with_arguments_witness :
  ∃ vf, makeFilter registry input "sort" [var "k"] = Ret vf ∧
        vf [("k", "weight")] = Ret (VClosure "weight" [("k", "weight")]).
Proof.
  destruct (makeFilter_calls_with_arguments registry input "sort" [var "k"]
              sortT 1 [("k", "weight")] (VInt 7)
              [VClosure "weight" [("k", "weight")]])
    as (vf & Hvf & Hrun); [vm_compute; reflexivity|reflexivity|reflexivity| |].
  - intros [|i] param Hi; [|destruct i; discriminate Hi].
    injection Hi as <-. eexists. split; [reflexivity|].
    change (closureParam sortT 0) with true. cbv iota.
    exists "weight", "weight". split_and!; reflexivity.
  - exists vf. split; [exact Hvf|]. rewrite Hrun. reflexivity.
Defined.

Lemma makeFilter_plain_arguments_witness :
  ∃ vf, makeFilter registry input "echo" [var "k"] = Ret vf ∧
        vf [("k", "x")] = Ret (VInt 7) ∧
        var "k" [("k", "x")] = Ret (VString "x").
Proof.
  destruct (makeFilter_plain_arguments registry input "echo" [var "k"]
              echoT 0 [("k", "x")] (VInt 7) [VInt 7; VString "x"])
    as (_ & _ & Hplain & vf & Hvf & Hrun);
    [vm_compute; reflexivity|reflexivity|reflexivity|].
  exists vf. split_and!; [exact Hvf|rewrite Hrun; reflexivity|].
  destruct (Hplain 0 (var "k") eq_refl) as (a & Ha & Hlook).
  { left. vm_compute. lia. }
  injection Hlook as <-. exact Ha.
Defined.

Lemma makeFilter_first_panic_witness :
  ∃ vf, makeFilter registry input "echo"
          [(λ _, Panic (GenericError "boom")); var "k"] = Ret vf ∧
        vf [] = Panic (InterpreterError "boom").
Proof.
  destruct (makeFilter_first_panic registry input "echo" echoT 0 []
              (GenericError "boom")) as [_ Harg]; [vm_compute; reflexivity|].
  destruct (Harg (VInt 7) [] (λ _, Panic (GenericError "boom")) [var "k"]
              [VInt 7]) as (vf & Hvf & Hrun);
    [reflexivity|reflexivity|reflexivity|].
  exists vf. split; [exact Hvf|]. rewrite Hrun. reflexivity.
Defined.

Lemma makeFilter_never_generic_witness :
  ∃ vf, makeFilter registry input "fail" [] = Ret vf ∧
        vf [] ≠ Panic (GenericError "division by zero").
Proof.
  eexists. split; [vm_compute; reflexivity|].
  apply (makeFilter_never_generic registry input "fail" []).
  vm_compute; reflexivity.
Defined.

Lemma makeFilter_never_bytes_witness :
  ∃ vf, makeFilter registry input "bytes" [] = Ret vf ∧
        vf [] ≠ Ret (VBytes [Byte.x68; Byte.x69]).
Proof.
  eexists. split; [vm_compute; reflexivity|].
  apply (makeFilter_never_bytes registry input "bytes" []).
  vm_compute; reflexivity.
Defined.

Lemma makeFilter_returns_witness :
  ∃ vf, makeFilter registry input "echo" [] = Ret vf ∧ vf [] = Ret (VInt 7).
Proof.
  destruct (makeFilter_returns registry input "echo" [] (VFunc echoT 0) []
              (VInt 7)) as (vf & Hvf & Hiff); [vm_compute; reflexivity|].
  exists vf. split; [exact Hvf|]. apply Hiff.
  exists (VInt 7), [VInt 7], (VInt 7). split_and!; reflexivity.
Defined.


Lemma makeFilter_chain_witness :
  ∃ vf1 vf2, makeFilter registry input "fail" [] = Ret vf1 ∧
    makeFilter registry vf1 "echo" [] = Ret vf2 ∧
    vf2 [] = Panic (InterpreterError "division by zero").
Proof.
  eexists. 
  destruct (makeFilter_chain registry input "fail" [] "echo" [] _
              (VFunc echoT 0) [] ltac:(vm_compute; reflexivity))
    as (vf2 & Hvf2 & Hpanic & _); [vm_compute; reflexivity|].
  exists vf2. split_and!; [vm_compute; reflexivity|exact Hvf2|].
  apply Hpanic. vm_compute; reflexivity.
Defined.

Lemma DefineFilter_then_makeFilter_witness :
  ∃ filters' vf,
    DefineFilter "size" (VFunc echoT 0 : Value) ∅ = Ret filters' ∧
    makeFilter filters' input "size" [] = Ret vf ∧
    vf [] = Ret (VInt 7).
Proof.
  eexists.
  destruct (DefineFilter_then_makeFilter "size" (VFunc echoT 0 : Value) ∅ _
              input [] ltac:(vm_compute; reflexivity)) as (vf & Hvf & Hrun).
  exists vf. split_and!; [vm_compute; reflexivity|exact Hvf|].
  rewrite (Hrun [] (VInt 7) [VInt 7]); reflexivity.
Defined.

Lemma DefineFilter_other_name_witness :
  ∃ filters', DefineFilter "size" (VFunc echoT 0) registry = Ret filters' ∧
    makeFilter filters' input "sort" [var "k"]
    = makeFilter registry input "sort" [var "k"] ∧
    makeFilter filters' input "nope" []
    = makeFilter registry input "nope" [].
Proof.
  eexists. split; [vm_compute; reflexivity|]. split.
  - apply (DefineFilter_other_name "size" (VFunc echoT 0) registry);
      [vm_compute; reflexivity|discriminate].
  - apply (DefineFilter_other_name "size" (VFunc echoT 0) registry);
      [vm_compute; reflexivity|discriminate].
Defined.

Lemma DefineFilter_twice_witness :
  ∃ filters1, DefineFilter "echo" (VFunc sortT 1) registry = Ret filters1 ∧
    DefineFilter "echo" (VFunc echoT 4) filters1
    = DefineFilter "echo" (VFunc echoT 4) registry ∧
    DefineFilter "echo" (VInt 3) filters1
    = DefineFilter "echo" (VInt 3) registry.
Proof.
  eexists. split; [vm_compute; reflexivity|]. split.
  - apply (DefineFilter_twice "echo" (VFunc sortT 1) (VFunc echoT 4)
             registry). vm_compute; reflexivity.
  - apply (DefineFilter_twice "echo" (VFunc sortT 1) (VInt 3) registry).
    vm_compute; reflexivity.
Defined.

Lemma DefineFilter_commute_witness :
  ∃ filters1 filters12 filters2,
    DefineFilter "a" (VFunc echoT 0 : Value) ∅ = Ret filters1 ∧
    DefineFilter "b" (VFunc sortT 1) filters1 = Ret filters12 ∧
    DefineFilter "b" (VFunc sortT 1 : Value) ∅ = Ret filters2 ∧
    DefineFilter "a" (VFunc echoT 0) filters2 = Ret filters12.
Proof.
  do 2 eexists.
  destruct (DefineFilter_commute "a" (VFunc echoT 0 : Value)
              "b" (VFunc sortT 1) ∅ _ _ ltac:(discriminate)
              ltac:(vm_compute; reflexivity) ltac:(vm_compute; reflexivity))
    as (filters2 & H2 & H21).
  exists filters2. split_and!; [vm_compute; reflexivity..|exact H2|exact H21].
Defined.

Lemma DefineFilter_valid_witness :
  ∃ filters', DefineFilter "size" (VFunc echoT 0 : Value) ∅ = Ret filters' ∧
              validRegistry filters'.
Proof.
  eexists. split; [vm_compute; reflexivity|].
  apply (DefineFilter_valid "size" (VFunc echoT 0 : Value) ∅);
    [apply validRegistry_empty|vm_compute; reflexivity].
Defined.

End SampleRunsMore.
